(** * natlink_p.c: the proxy/stub tables of IDgnAppSupport

    A shallow embedding of [NatlinkSource/natlink_p.c], the MIDL-generated
    proxy/stub translation unit of the COM interface [IDgnAppSupport]
    (Oicf, env=Win32, x86), and the properties of its tables and of
    [_natlink_IID_Lookup].

    Layout of the development:
    - machine data: bytes, little-endian integers, a byte-addressed memory
      and a small state-and-failure monad for code that goes through
      pointers;
    - the data of the unit, in the order of the source: format strings,
      GUIDs, offset table, proxy and stub tables, the file-level lists;
    - [_natlink_IID_Lookup];
    - the conditional-compilation gates of the unit;
    - the stub-side dispatcher, which lives in the COM runtime and is
      modelled over the tables of the unit;
    - the theorems. *)

From Stdlib Require Import ZArith List String Ascii Bool Lia.
From Stdlib Require Strings.Byte.
From stdpp Require Import base option list gmap.

Local Open Scope Z_scope.

(* ================================================================== *)
(** ** Machine data *)

Abbreviation byte := Byte.byte.

(** The value of an [unsigned char]. *)
Definition byte_val (b : byte) : Z := Z.of_N (Byte.to_N b).

(** Conversion to [unsigned char]: reduction modulo 256. *)
Definition byte_of (z : Z) : byte :=
  match Byte.of_N (Z.to_N (z mod 256)) with
  | Some b => b
  | None => Byte.x00
  end.

(** Little-endian layout of an [n]-byte integer (x86). *)
Fixpoint encode_le (n : nat) (z : Z) : list byte :=
  match n with
  | O => []
  | S n' => byte_of z :: encode_le n' (z / 256)
  end.

Fixpoint decode_le (bs : list byte) : Z :=
  match bs with
  | [] => 0
  | b :: bs' => byte_val b + 256 * decode_le bs'
  end.

(** [int] is 32 bits wide on Win32; [unsigned short] is 16 bits. *)
Definition wrap_int (z : Z) : Z := (z + 2 ^ 31) mod 2 ^ 32 - 2 ^ 31.
Definition wrap_ushort (z : Z) : Z := z mod 2 ^ 16.

(** *** Memory

    A byte-addressed store; an address that is not in the map is not
    mapped, and an access to it faults ([None]). *)

Abbreviation mem := (gmap Z byte).

Fixpoint load_bytes (m : mem) (p : Z) (n : nat) : option (list byte) :=
  match n with
  | O => Some []
  | S n' =>
      match m !! p, load_bytes m (p + 1) n' with
      | Some b, Some bs => Some (b :: bs)
      | _, _ => None
      end
  end.

Fixpoint store_bytes (m : mem) (p : Z) (bs : list byte) : option mem :=
  match bs with
  | [] => Some m
  | b :: bs' =>
      match m !! p with
      | Some _ => store_bytes (<[p := b]> m) (p + 1) bs'
      | None => None
      end
  end.

Definition load_int (m : mem) (p : Z) : option Z :=
  match load_bytes m p 4 with
  | Some bs => Some (wrap_int (decode_le bs))
  | None => None
  end.

Definition store_int (m : mem) (p : Z) (v : Z) : option mem :=
  store_bytes m p (encode_le 4 v).

(** An [int] object at [p] that can be written. *)
Definition valid_int (m : mem) (p : Z) : Prop :=
  forall i, 0 <= i < 4 -> is_Some (m !! (p + i)).

(** Addresses of the [n]-byte object at [p]. *)
Definition in_range (p : Z) (n : Z) (a : Z) : Prop := p <= a < p + n.

(** A memory that holds [bs] from address [p] on, on top of [m]. *)
Fixpoint alloc_bytes (m : mem) (p : Z) (bs : list byte) : mem :=
  match bs with
  | [] => m
  | b :: bs' => <[p := b]> (alloc_bytes m (p + 1) bs')
  end.

(** *** Computations over the memory *)

Definition M (A : Type) : Type := mem -> option (A * mem).

Definition ret {A} (a : A) : M A := fun m => Some (a, m).

Definition bind {A B} (c : M A) (k : A -> M B) : M B :=
  fun m => match c m with
           | Some (a, m') => k a m'
           | None => None
           end.

Notation "'let*' x ':=' c 'in' k" := (bind c (fun x => k))
  (at level 10, x name, c at level 100, k at level 200).
Notation "c ';;' k" := (bind c (fun _ => k))
  (at level 100, k at level 200, right associativity).

Definition read_bytes (p : Z) (n : nat) : M (list byte) :=
  fun m => match load_bytes m p n with
           | Some bs => Some (bs, m)
           | None => None
           end.

(** [*p = v] for an [int *p]. *)
Definition write_int (p : Z) (v : Z) : M unit :=
  fun m => match store_int m p v with
           | Some m' => Some (tt, m')
           | None => None
           end.

(* ================================================================== *)
(** ** GUIDs *)

(** [struct GUID { unsigned long Data1; unsigned short Data2, Data3;
    unsigned char Data4[8]; }], 16 bytes without padding. *)
Record GUID : Type := mkGUID {
  Data1 : Z;
  Data2 : Z;
  Data3 : Z;
  Data4 : list Z
}.

Abbreviation IID := GUID.

(** The object representation of a GUID on x86. *)
Definition GUID_bytes (g : GUID) : list byte :=
  encode_le 4 (Data1 g) ++ encode_le 2 (Data2 g) ++ encode_le 2 (Data3 g)
  ++ map byte_of (Data4 g).

(** The GUID held by 16 bytes of memory. *)
Definition GUID_of_bytes (bs : list byte) : GUID :=
  {| Data1 := decode_le (take 4 bs);
     Data2 := decode_le (take 2 (drop 4 bs));
     Data3 := decode_le (take 2 (drop 6 bs));
     Data4 := map byte_val (drop 8 bs) |}.

Definition load_GUID (m : mem) (p : Z) : option GUID :=
  match load_bytes m p 16 with
  | Some bs => Some (GUID_of_bytes bs)
  | None => None
  end.

(** GUIDs in the textual form the interface definitions use:
    [{xxxxxxxx-xxxx-xxxx-xxxx-xxxxxxxxxxxx}], lower-case hexadecimal. *)
Definition hex_digit (d : Z) : ascii :=
  match String.get (Z.to_nat d) "0123456789abcdef" with
  | Some c => c
  | None => "?"%char
  end.

Fixpoint hex (n : nat) (z : Z) : string :=
  match n with
  | O => EmptyString
  | S n' => String.append (hex n' (z / 16))
                          (String (hex_digit (z mod 16)) EmptyString)
  end.

Definition GUID_string (g : GUID) : string :=
  String.concat ""
    [ "{"; hex 8 (Data1 g); "-"; hex 4 (Data2 g); "-"; hex 4 (Data3 g); "-";
      String.concat "" (map (hex 2) (take 2 (Data4 g))); "-";
      String.concat "" (map (hex 2) (drop 2 (Data4 g))); "}" ]%string.

(* ================================================================== *)
(** ** The data of the unit *)

(** *** C tables *)

(** An array of [n] elements with an initialiser list: the initialisers
    in order, the remaining elements zero. *)
Definition c_array {A} (zero : A) (n : nat) (inits : list A) : list A :=
  take n (inits ++ replicate n zero).

(** [&array[offset]]: a pointer into (or, for a negative offset, before)
    an array.  Indexing it at [k] reads [array[offset + k]]; outside the
    array there is no element to read. *)
Record table_ptr (A : Type) : Type := mk_table_ptr {
  tp_array : list A;
  tp_offset : Z
}.
Arguments mk_table_ptr {A} _ _.
Arguments tp_array {A} _.
Arguments tp_offset {A} _.

Definition tp_index {A} (p : table_ptr A) (k : Z) : option A :=
  let i := tp_offset p + k in
  if i <? 0 then None else tp_array p !! Z.to_nat i.

(** *** Format strings (lines 51-73, 104-121) *)

Definition TYPE_FORMAT_STRING_SIZE : nat := 3.
Definition PROC_FORMAT_STRING_SIZE : nat := 1.
Definition EXPR_FORMAT_STRING_SIZE : nat := 1.
Definition TRANSMIT_AS_TABLE_SIZE : nat := 0.
Definition WIRE_MARSHAL_TABLE_SIZE : nat := 0.

(** [struct { short Pad; unsigned char Format[SIZE]; }] *)
Record MIDL_FORMAT_STRING : Type := {
  Pad : Z;
  Format : list byte
}.

(** [NdrFcShort] is a macro of <rpcndr.h>, which the unit includes
    through <rpcproxy.h>: a 16-bit value as two bytes, low byte first. *)
Definition NdrFcShort (s : Z) : list byte :=
  [byte_of (Z.land s 255); byte_of (Z.shiftr s 8)].

Definition natlink__MIDL_ProcFormatString : MIDL_FORMAT_STRING :=
  {| Pad := 0;
     Format := c_array Byte.x00 PROC_FORMAT_STRING_SIZE [byte_of 0x0] |}.

Definition natlink__MIDL_TypeFormatString : MIDL_FORMAT_STRING :=
  {| Pad := 0;
     Format := c_array Byte.x00 TYPE_FORMAT_STRING_SIZE
                 (NdrFcShort 0x0 ++ [byte_of 0x0]) |}.

(** *** Transfer syntax (lines 76-77) *)

Record RPC_VERSION : Type := {
  MajorVersion : Z;
  MinorVersion : Z
}.

Record RPC_SYNTAX_IDENTIFIER : Type := {
  SyntaxGUID : GUID;
  SyntaxVersion : RPC_VERSION
}.

Definition _RpcTransferSyntax : RPC_SYNTAX_IDENTIFIER :=
  {| SyntaxGUID :=
       mkGUID 0x8A885D04 0x1CEB 0x11C9
              [0x9F; 0xE8; 0x08; 0x00; 0x2B; 0x10; 0x48; 0x60];
     SyntaxVersion := {| MajorVersion := 2; MinorVersion := 0 |} |}.

(** *** Interface identities (lines 124-133)

    The three IIDs are declared in "natlink_i.h" and the system headers;
    the unit records their values in the comment that opens each object
    interface. *)

Definition IID_IUnknown : IID :=
  mkGUID 0x00000000 0x0000 0x0000
         [0xC0; 0x00; 0x00; 0x00; 0x00; 0x00; 0x00; 0x46].

Definition IID_IDispatch : IID :=
  mkGUID 0x00020400 0x0000 0x0000
         [0xC0; 0x00; 0x00; 0x00; 0x00; 0x00; 0x00; 0x46].

Definition IID_IDgnAppSupport : IID :=
  mkGUID 0xcadd17a0 0x482a 0x484c
         [0x94; 0x51; 0x7a; 0xcb; 0xa6; 0xf1; 0x27; 0x2f].

(** *** Format string offsets (lines 136-143)

    One entry per slot after the three of [IUnknown]; [(unsigned short) -1]
    marks a slot without a format string of its own. *)

Definition NO_FORMAT_OFFSET : Z := wrap_ushort (-1).

Definition IDgnAppSupport_FormatStringOffsetTable : list Z :=
  [ wrap_ushort (-1);
    wrap_ushort (-1);
    wrap_ushort (-1);
    wrap_ushort (-1);
    0 ].

(** *** Stub descriptor (lines 197-219); the null fields are left out *)

Inductive ndr_routine : Type :=
  | NdrOleAllocate
  | NdrOleFree.

Record MIDL_STUB_DESC : Type := {
  pfnAllocate : ndr_routine;
  pfnFree : ndr_routine;
  pFormatTypes : list byte;
  fCheckBounds : Z;
  Version : Z;
  MIDLVersion : Z;
  mFlags : Z
}.

Definition Object_StubDesc : MIDL_STUB_DESC :=
  {| pfnAllocate := NdrOleAllocate;
     pfnFree := NdrOleFree;
     pFormatTypes := Format natlink__MIDL_TypeFormatString;
     fCheckBounds := 1;
     Version := 0x60001;
     MIDLVersion := 0x801026e;
     mFlags := 0x1 |}.

(** *** Proxy and server information (lines 145-165); the null fields
    are left out *)

Record MIDL_STUBLESS_PROXY_INFO : Type := {
  ProxyInfo_pStubDesc : MIDL_STUB_DESC;
  ProxyInfo_ProcFormatString : list byte;
  ProxyInfo_FormatStringOffset : table_ptr Z
}.

Definition IDgnAppSupport_ProxyInfo : MIDL_STUBLESS_PROXY_INFO :=
  {| ProxyInfo_pStubDesc := Object_StubDesc;
     ProxyInfo_ProcFormatString := Format natlink__MIDL_ProcFormatString;
     ProxyInfo_FormatStringOffset :=
       mk_table_ptr IDgnAppSupport_FormatStringOffsetTable (-3) |}.

Record MIDL_SERVER_INFO : Type := {
  pStubDesc : MIDL_STUB_DESC;
  ProcString : list byte;
  FmtStringOffset : table_ptr Z
}.

Definition IDgnAppSupport_ServerInfo : MIDL_SERVER_INFO :=
  {| pStubDesc := Object_StubDesc;
     ProcString := Format natlink__MIDL_ProcFormatString;
     FmtStringOffset :=
       mk_table_ptr IDgnAppSupport_FormatStringOffsetTable (-3) |}.

(** *** Proxy method table (lines 166-177) *)

(** The functions a slot of the proxy table is bound to in the unit; a
    null slot is [None]. *)
Inductive proxy_method : Type :=
  | IUnknown_QueryInterface_Proxy
  | IUnknown_AddRef_Proxy
  | IUnknown_Release_Proxy.

(** With [USE_STUBLESS_PROXY] (line 34) the header has two fields. *)
Record CInterfaceProxyHeader : Type := {
  pStublessProxyInfo : option MIDL_STUBLESS_PROXY_INFO;
  piid : IID
}.

Record CInterfaceProxyVtbl : Type := {
  header : CInterfaceProxyHeader;
  Vtbl : list (option proxy_method)
}.

(** [CINTERFACE_PROXY_VTABLE(n)]: a header followed by [void *Vtbl[n]]. *)
Definition CINTERFACE_PROXY_VTABLE (n : nat) (h : CInterfaceProxyHeader)
    (inits : list (option proxy_method)) : CInterfaceProxyVtbl :=
  {| header := h; Vtbl := c_array None n inits |}.

Definition _IDgnAppSupportProxyVtbl : CInterfaceProxyVtbl :=
  CINTERFACE_PROXY_VTABLE 7
    {| pStublessProxyInfo := None;
       piid := IID_IDgnAppSupport |}
    [ Some IUnknown_QueryInterface_Proxy;
      Some IUnknown_AddRef_Proxy;
      Some IUnknown_Release_Proxy;
      None (* IDispatch::GetTypeInfoCount *);
      None (* IDispatch::GetTypeInfo *);
      None (* IDispatch::GetIDsOfNames *);
      None (* IDispatch_Invoke_Proxy *) ].

(** A call through slot [k] of a proxy table calls the function the slot
    points to; a null slot has no function to call, and neither has an
    ordinal outside the table. *)
Inductive slot_fault : Type :=
  | NullSlot
  | SlotOutOfBounds.

Definition proxy_slot (vt : CInterfaceProxyVtbl) (k : Z)
  : option (option proxy_method) :=
  if k <? 0 then None else Vtbl vt !! Z.to_nat k.

Definition Proxy_call (vt : CInterfaceProxyVtbl) (k : Z)
  : slot_fault + proxy_method :=
  match proxy_slot vt k with
  | Some (Some f) => inr f
  | Some None => inl NullSlot
  | None => inl SlotOutOfBounds
  end.

(** *** Stub dispatch table (lines 180-195) *)

(** Stub functions of the runtime.  [STUB_FORWARDING_FUNCTION] hands the
    call to the stub of the base interface; [NdrStubCall2] is the
    interpreter entry, which unmarshals by a format string.  Only the
    first occurs in this unit. *)
Inductive PRPC_STUB_FUNCTION : Type :=
  | STUB_FORWARDING_FUNCTION
  | NdrStubCall2.

Definition IDgnAppSupport_table : list PRPC_STUB_FUNCTION :=
  [ STUB_FORWARDING_FUNCTION;
    STUB_FORWARDING_FUNCTION;
    STUB_FORWARDING_FUNCTION;
    STUB_FORWARDING_FUNCTION ].

Record CInterfaceStubHeader : Type := {
  stub_piid : IID;
  pServerInfo : MIDL_SERVER_INFO;
  DispatchTableCount : Z;
  pDispatchTable : table_ptr PRPC_STUB_FUNCTION
}.

(** The two method sets <rpcproxy.h> offers for the [IRpcStubBuffer]
    part of a stub table. *)
Inductive IRpcStubBufferVtbl : Type :=
  | CStdStubBuffer_METHODS
  | CStdStubBuffer_DELEGATING_METHODS.

Record CInterfaceStubVtbl : Type := {
  stub_header : CInterfaceStubHeader;
  stub_Vtbl : IRpcStubBufferVtbl
}.

Definition _IDgnAppSupportStubVtbl : CInterfaceStubVtbl :=
  {| stub_header :=
       {| stub_piid := IID_IDgnAppSupport;
          pServerInfo := IDgnAppSupport_ServerInfo;
          DispatchTableCount := 7;
          pDispatchTable := mk_table_ptr IDgnAppSupport_table (-3) |};
     stub_Vtbl := CStdStubBuffer_DELEGATING_METHODS |}.

(** *** File-level lists (lines 221-243); each ends with a null entry *)

Definition _natlink_ProxyVtblList : list (option CInterfaceProxyVtbl) :=
  [ Some _IDgnAppSupportProxyVtbl; None ].

Definition _natlink_StubVtblList : list (option CInterfaceStubVtbl) :=
  [ Some _IDgnAppSupportStubVtbl; None ].

Definition _natlink_InterfaceNamesList : list (option string) :=
  [ Some "IDgnAppSupport"%string; None ].

Definition _natlink_BaseIIDList : list (option IID) :=
  [ Some IID_IDispatch; None ].

(** *** The interfaces behind the slots

    The unit names three object interfaces (lines 124-133) and writes,
    for each slot of the proxy table, the method it stands for: as the
    name of the function bound to it or as a comment (lines 170-176). *)

Inductive interface : Type :=
  | IUnknown
  | IDispatch
  | IDgnAppSupport.

Definition interface_eqb (a b : interface) : bool :=
  match a, b with
  | IUnknown, IUnknown | IDispatch, IDispatch
  | IDgnAppSupport, IDgnAppSupport => true
  | _, _ => false
  end.

Definition IDgnAppSupport_slot_names : list (interface * string) :=
  [ (IUnknown, "QueryInterface");
    (IUnknown, "AddRef");
    (IUnknown, "Release");
    (IDispatch, "GetTypeInfoCount");
    (IDispatch, "GetTypeInfo");
    (IDispatch, "GetIDsOfNames");
    (IDispatch, "Invoke") ]%string.

(** Number of slots an interface declares. *)
Definition slots_of (i : interface) : nat :=
  length (filter (fun s => interface_eqb (fst s) i = true)
                 IDgnAppSupport_slot_names).

(* ================================================================== *)
(** ** Identity lookup (lines 246-258) *)

(** [memcmp] of the C library on two byte sequences of one length: the
    difference of the first pair of bytes that differ, 0 when there is
    none. *)
Fixpoint memcmp_bytes (a b : list byte) : Z :=
  match a, b with
  | x :: a', y :: b' =>
      if byte_val x =? byte_val y then memcmp_bytes a' b'
      else byte_val x - byte_val y
  | _, _ => 0
  end.

(** [memcmp(p, q, n)] with [q] pointing to constant data. *)
Definition memcmp (p : Z) (q : list byte) (n : nat) : M Z :=
  let* a := read_bytes p n in
  ret (memcmp_bytes a (take n q)).

(** [IID_GENERIC_CHECK_IID(name, pIID, index)] is a macro of <rpcproxy.h>:
    [memcmp(pIID, name##_ProxyVtblList[index]->header.piid, 16)].  A null
    or missing list entry cannot be dereferenced. *)
Definition IID_GENERIC_CHECK_IID
    (ProxyVtblList : list (option CInterfaceProxyVtbl))
    (pIID : Z) (index : nat) : M Z :=
  match ProxyVtblList !! index with
  | Some (Some vt) => memcmp pIID (GUID_bytes (piid (header vt))) 16
  | _ => fun _ => None
  end.

Definition _natlink_CHECK_IID (pIID : Z) (n : nat) : M Z :=
  IID_GENERIC_CHECK_IID _natlink_ProxyVtblList pIID n.

(** [int __stdcall _natlink_IID_Lookup(const IID *pIID, int *pIndex)] *)
Definition _natlink_IID_Lookup (pIID pIndex : Z) : M Z :=
  let* c := _natlink_CHECK_IID pIID 0 in
  if c =? 0 then
    (write_int pIndex 0 ;; ret 1)
  else
    ret 0.

(** *** The exported file information (lines 260-273) *)

Record ExtendedProxyFileInfo : Type := {
  pProxyVtblList : list (option CInterfaceProxyVtbl);
  pStubVtblList : list (option CInterfaceStubVtbl);
  pNamesArray : list (option string);
  pDelegatedIIDs : list (option IID);
  pIIDLookupRtn : Z -> Z -> M Z;
  TableSize : Z;
  TableVersion : Z
}.

Definition natlink_ProxyFileInfo : ExtendedProxyFileInfo :=
  {| pProxyVtblList := _natlink_ProxyVtblList;
     pStubVtblList := _natlink_StubVtblList;
     pNamesArray := _natlink_InterfaceNamesList;
     pDelegatedIIDs := _natlink_BaseIIDList;
     pIIDLookupRtn := _natlink_IID_Lookup;
     TableSize := 1;
     TableVersion := 2 |}.

(* ================================================================== *)
(** ** Conditional compilation (lines 19, 37-46, 93-101, 280)

    The unit is guarded by preprocessor conditions on the build
    environment.  An [#error] directive stops the translation (for the
    compiler the unit is generated for it is fatal), so the first one
    reached decides; without one the unit defines its tables, or nothing
    at all on the architectures line 19 excludes. *)

Record build_env : Type := {
  _M_IA64 : bool;                 (* defined(_M_IA64) *)
  _M_AMD64 : bool;                (* defined(_M_AMD64) *)
  _ARM_ : bool;                   (* defined(_ARM_) *)
  __RPCPROXY_H_VERSION__ : bool;  (* defined, after rpcproxy.h was read *)
  __RPC_WIN32__ : bool;           (* defined(__RPC_WIN32__) *)
  _WIN32_WINNT : Z                (* the system version the build targets *)
}.

(** The Vista tier of the host version: NT 6.0, written 0x0600. *)
Definition NT60 : Z := 0x0600.

(** Modelled from the spec: [TARGET_IS_NT60_OR_LATER] is a macro of
    <rpcndr.h>, which is not among the sources.  It compares the version
    the build declares for the host with the minimum the stub assumes,
    the Vista tier: 1 at or above it, else 0. *)
Definition TARGET_IS_NT60_OR_LATER (e : build_env) : Z :=
  if NT60 <=? _WIN32_WINNT e then 1 else 0.

Inductive build_error : Type :=
  | rpcproxy_h_outdated        (* line 45 *)
  | Invalid_build_platform     (* line 94 *)
  | RPC_X_WRONG_STUB_VERSION.  (* lines 97-100 *)


Definition translation_unit (e : build_env)
  : build_error + option ExtendedProxyFileInfo :=
  if negb (_M_IA64 e) && negb (_M_AMD64 e) && negb (_ARM_ e) then
    if negb (__RPCPROXY_H_VERSION__ e) then inl rpcproxy_h_outdated
    else if negb (__RPC_WIN32__ e) then inl Invalid_build_platform
    else if TARGET_IS_NT60_OR_LATER e =? 0 then inl RPC_X_WRONG_STUB_VERSION
    else inr (Some natlink_ProxyFileInfo)
  else inr None.



(* ================================================================== *)
(** ** Stub-side dispatch *)

Inductive dispatch_error : Type :=
  | OrdinalOutOfRange.

(** What a dispatch does with the request, in order. *)
Inductive dispatch_step : Type :=
  | Delegate (k : Z) (f : option PRPC_STUB_FUNCTION)
  | Deserialize (k : Z) (format_offset : option Z)
  | Invoke (k : Z).

(** Number of slots the base capabilities take: three of [IUnknown] and
    four of [IDispatch]. *)
Definition BASE_SLOTS : Z := 7.

Inductive dispatch_result : Type :=
  | Dispatched
  | Failed (e : dispatch_error).

(** Modelled from the spec: the dispatcher that consumes the stub table
    is the COM runtime's and is not among the sources.  Following the
    spec, it validates the ordinal against the declared table size
    first; an ordinal outside it is rejected before anything else
    happens.  Slots 0-6 are delegated to the generic base-capability
    stub machinery (for the slots the table covers, through the entry
    the table holds); a slot from 7 on is deserialized by its format
    string and the method of the object is invoked.  The result comes
    with the steps taken on the way. *)
Definition Stub_dispatch (stub : CInterfaceStubVtbl) (k : Z)
  : list dispatch_step * dispatch_result :=
  let h := stub_header stub in
  if (k <? 0) || (DispatchTableCount h <=? k) then
    ([], Failed OrdinalOutOfRange)
  else if k <? BASE_SLOTS then
    ([ Delegate k (tp_index (pDispatchTable h) k) ], Dispatched)
  else
    ([ Deserialize k (tp_index (FmtStringOffset (pServerInfo h)) k);
       Invoke k ], Dispatched).

(** Whether a dispatch touched the serialized arguments. *)
Definition deserializes (s : dispatch_step) : bool :=
  match s with
  | Deserialize _ _ => true
  | _ => false
  end.

(** A slot has a marshaling description of its own when the offset table
    holds a real offset for it. *)
Definition has_format (offsets : table_ptr Z) (k : Z) : bool :=
  match tp_index offsets k with
  | Some off => negb (off =? NO_FORMAT_OFFSET)
  | None => false
  end.

(** Equality of GUIDs is decidable. *)
#[global] Instance GUID_eq_dec : EqDecision GUID.
Proof. solve_decision. Defined.

(** The identities the unit registers: one per non-null proxy table. *)
Definition registered_IIDs : list IID :=
  map (fun vt => piid (header vt)) (omap id _natlink_ProxyVtblList).

(** Index [i] of the file-level lists holds the descriptor of [I]. *)
Definition descriptor_at (i : Z) (I : IID) : Prop :=
  0 <= i /\
  exists vt, _natlink_ProxyVtblList !! Z.to_nat i = Some (Some vt)
             /\ piid (header vt) = I.

(** A memory for the examples: the identity [I] at address 0 and an
    [int] holding [idx] at address 16. *)
Definition mem_with (I : IID) (idx : Z) : mem :=
  alloc_bytes (alloc_bytes ∅ 16 (encode_le 4 idx)) 0 (GUID_bytes I).

(* ================================================================== *)
(** * Properties *)

(** ** Bytes and little-endian integers *)

Lemma byte_val_range (b : byte) : 0 <= byte_val b < 256.
Proof.
  unfold byte_val. pose proof (Byte.to_N_bounded b). lia.
Qed.

Lemma byte_of_val (b : byte) : byte_of (byte_val b) = b.
Proof.
  unfold byte_of. rewrite Z.mod_small by apply byte_val_range.
  unfold byte_val. rewrite N2Z.id, Byte.of_to_N. reflexivity.
Qed.

Lemma byte_val_of (z : Z) : byte_val (byte_of z) = z mod 256.
Proof.
  unfold byte_of, byte_val.
  assert (Hr : 0 <= z mod 256 < 256) by (apply Z.mod_pos_bound; lia).
  destruct (Byte.of_N (Z.to_N (z mod 256))) as [b|] eqn:E.
  - apply Byte.to_of_N in E. rewrite E. lia.
  - apply Byte.of_N_None_iff in E. lia.
Qed.

Lemma byte_val_inj (a b : byte) : byte_val a = byte_val b -> a = b.
Proof.
  intros H. rewrite <- (byte_of_val a), <- (byte_of_val b), H. reflexivity.
Qed.

Lemma decode_le_range (bs : list byte) :
  0 <= decode_le bs < 256 ^ Z.of_nat (length bs).
Proof.
  induction bs as [|b bs IH].
  - simpl. lia.
  - cbn [decode_le length]. rewrite Nat2Z.inj_succ, Z.pow_succ_r by lia.
    pose proof (byte_val_range b). lia.
Qed.

Lemma encode_decode_le (bs : list byte) :
  encode_le (length bs) (decode_le bs) = bs.
Proof.
  induction bs as [|b bs IH]; [reflexivity|].
  cbn [length encode_le decode_le].
  pose proof (byte_val_range b) as Hb.
  assert (Hq : (byte_val b + 256 * decode_le bs) / 256 = decode_le bs).
  { rewrite Z.mul_comm, Z.div_add by lia.
    rewrite Z.div_small by lia. lia. }
  assert (Hm : byte_of (byte_val b + 256 * decode_le bs) = b).
  { rewrite <- (byte_of_val b) at 2. apply byte_val_inj.
    rewrite !byte_val_of, Z.mul_comm, Z.mod_add by lia. reflexivity. }
  rewrite Hq, Hm, IH. reflexivity.
Qed.

Lemma decode_encode_le (n : nat) (z : Z) :
  decode_le (encode_le n z) = z mod 256 ^ Z.of_nat n.
Proof.
  revert z. induction n as [|n IH]; intros z.
  - simpl. rewrite Z.mod_1_r. reflexivity.
  - cbn [encode_le decode_le]. rewrite IH, byte_val_of.
    rewrite Nat2Z.inj_succ, Z.pow_succ_r by lia.
    rewrite Z.rem_mul_r by lia. reflexivity.
Qed.

Lemma length_encode_le (n : nat) (z : Z) : length (encode_le n z) = n.
Proof. revert z. induction n; intros; simpl; auto. Qed.

Lemma map_byte_of_val (bs : list byte) : map byte_of (map byte_val bs) = bs.
Proof.
  induction bs as [|b bs IH]; [reflexivity|].
  simpl. rewrite byte_of_val, IH. reflexivity.
Qed.

(** ** The comparison of [memcmp] *)

Lemma memcmp_bytes_refl (a : list byte) : memcmp_bytes a a = 0.
Proof.
  induction a as [|x a IH]; [reflexivity|].
  simpl. rewrite Z.eqb_refl. exact IH.
Qed.

Lemma memcmp_bytes_eq (a b : list byte) :
  length a = length b -> memcmp_bytes a b = 0 -> a = b.
Proof.
  revert b. induction a as [|x a IH]; intros [|y b] Hlen Hc;
    try discriminate; [reflexivity|].
  simpl in Hc. destruct (byte_val x =? byte_val y) eqn:E.
  - apply Z.eqb_eq, byte_val_inj in E. subst y.
    f_equal. apply IH; [simpl in Hlen; lia | exact Hc].
  - apply Z.eqb_neq in E. lia.
Qed.

Lemma memcmp_bytes_zero_iff (a b : list byte) :
  length a = length b -> memcmp_bytes a b = 0 <-> a = b.
Proof.
  intros Hlen. split.
  - now apply memcmp_bytes_eq.
  - intros ->. apply memcmp_bytes_refl.
Qed.

(** ** Loads and stores *)

Lemma load_bytes_length (m : mem) (p : Z) (n : nat) (bs : list byte) :
  load_bytes m p n = Some bs -> length bs = n.
Proof.
  revert p bs. induction n as [|n IH]; intros p bs H; simpl in H.
  - injection H as <-. reflexivity.
  - destruct (m !! p); [|discriminate].
    destruct (load_bytes m (p + 1) n) as [bs'|] eqn:E; [|discriminate].
    injection H as <-. simpl. f_equal. eapply IH, E.
Qed.

Lemma load_bytes_ext (m m' : mem) (p : Z) (n : nat) :
  (forall a, in_range p (Z.of_nat n) a -> m' !! a = m !! a) ->
  load_bytes m' p n = load_bytes m p n.
Proof.
  revert p. induction n as [|n IH]; intros p H; [reflexivity|].
  cbn [load_bytes].
  rewrite (H p) by (unfold in_range; lia).
  rewrite (IH (p + 1)); [reflexivity|].
  intros a Ha. apply H. unfold in_range in *. lia.
Qed.

Lemma load_bytes_total (m : mem) (p : Z) (n : nat) :
  (forall i, 0 <= i < Z.of_nat n -> is_Some (m !! (p + i))) ->
  is_Some (load_bytes m p n).
Proof.
  revert p. induction n as [|n IH]; intros p H; [eexists; reflexivity|].
  cbn [load_bytes].
  destruct (H 0) as [b Hb]; [lia|]. rewrite Z.add_0_r in Hb. rewrite Hb.
  destruct (IH (p + 1)) as [bs Hbs].
  { intros i Hi. replace (p + 1 + i) with (p + (1 + i)) by lia.
    apply H. lia. }
  rewrite Hbs. eexists; reflexivity.
Qed.

(** A store changes nothing outside the object it writes. *)
Lemma store_bytes_frame (bs : list byte) (m m' : mem) (p a : Z) :
  store_bytes m p bs = Some m' ->
  ~ in_range p (Z.of_nat (length bs)) a ->
  m' !! a = m !! a.
Proof.
  revert m p. induction bs as [|b bs IH]; intros m p H Ha; simpl in H.
  - injection H as <-. reflexivity.
  - destruct (m !! p) eqn:E; [|discriminate].
    rewrite (IH _ _ H).
    + apply lookup_insert_ne. intros ->. apply Ha.
      unfold in_range. cbn [length]. lia.
    + intros Hr. apply Ha. unfold in_range in *. cbn [length]. lia.
Qed.

(** A store to mapped addresses goes through. *)
Lemma store_bytes_total (bs : list byte) (m : mem) (p : Z) :
  (forall i, 0 <= i < Z.of_nat (length bs) -> is_Some (m !! (p + i))) ->
  is_Some (store_bytes m p bs).
Proof.
  revert m p. induction bs as [|b bs IH]; intros m p H;
    [eexists; reflexivity|].
  cbn [store_bytes].
  destruct (H 0) as [b0 Hb0]; [cbn [length]; lia|].
  rewrite Z.add_0_r in Hb0. rewrite Hb0.
  apply IH. intros i Hi.
  replace (p + 1 + i) with (p + (1 + i)) by lia.
  destruct (H (1 + i)) as [c Hc]; [cbn [length]; lia|].
  rewrite lookup_insert_ne by lia. eauto.
Qed.

(** What was stored is what is loaded. *)
Lemma load_store_bytes (bs : list byte) (m m' : mem) (p : Z) :
  store_bytes m p bs = Some m' ->
  load_bytes m' p (length bs) = Some bs.
Proof.
  revert m p. induction bs as [|b bs IH]; intros m p H; [reflexivity|].
  simpl in H. destruct (m !! p) eqn:E; [|discriminate].
  cbn [length load_bytes].
  rewrite (store_bytes_frame _ _ _ _ p H) by (unfold in_range; lia).
  rewrite lookup_insert_eq, (IH _ _ H). reflexivity.
Qed.

(** Storing what is already there changes nothing. *)
Lemma store_bytes_same (bs : list byte) (m : mem) (p : Z) :
  load_bytes m p (length bs) = Some bs -> store_bytes m p bs = Some m.
Proof.
  revert p. induction bs as [|b bs IH]; intros p H; [reflexivity|].
  cbn [length load_bytes] in H. cbn [store_bytes].
  destruct (m !! p) as [b0|] eqn:E; [|discriminate].
  destruct (load_bytes m (p + 1) (length bs)) as [bs0|] eqn:E'; [|discriminate].
  injection H as -> ->.
  rewrite insert_id by exact E. apply IH, E'.
Qed.

Lemma store_int_total (m : mem) (p v : Z) :
  valid_int m p -> is_Some (store_int m p v).
Proof.
  intros Hv. apply store_bytes_total.
  rewrite length_encode_le. exact Hv.
Qed.

Lemma store_int_frame (m m' : mem) (p v a : Z) :
  store_int m p v = Some m' -> ~ in_range p 4 a -> m' !! a = m !! a.
Proof.
  intros H Ha. eapply store_bytes_frame; [exact H|].
  rewrite length_encode_le. exact Ha.
Qed.

Lemma load_store_int (m m' : mem) (p v : Z) :
  store_int m p v = Some m' -> load_int m' p = Some (wrap_int v).
Proof.
  intros H. unfold load_int.
  pose proof (load_store_bytes _ _ _ _ H) as L.
  rewrite length_encode_le in L. rewrite L, decode_encode_le.
  f_equal. unfold wrap_int.
  change (256 ^ Z.of_nat 4) with (2 ^ 32).
  rewrite <- (Z.add_mod_idemp_l v) by lia.
  rewrite Z.add_mod_idemp_l by lia. reflexivity.
Qed.

Lemma store_int_same (m m' : mem) (p v : Z) :
  store_int m p v = Some m' -> store_int m' p v = Some m'.
Proof.
  intros H. apply store_bytes_same.
  apply (load_store_bytes _ _ _ _ H).
Qed.

Lemma valid_int_load (m : mem) (p : Z) : valid_int m p -> is_Some (load_int m p).
Proof.
  intros Hv. unfold load_int.
  destruct (load_bytes_total m p 4 Hv) as [bs ->]. eauto.
Qed.

(** ** GUIDs and their bytes *)

Lemma GUID_bytes_of_bytes (bs : list byte) :
  length bs = 16%nat -> GUID_bytes (GUID_of_bytes bs) = bs.
Proof.
  intros Hlen.
  do 16 (destruct bs as [|? bs]; [discriminate Hlen|]).
  destruct bs; [|discriminate Hlen].
  unfold GUID_bytes, GUID_of_bytes.
  cbn [Data1 Data2 Data3 Data4 take drop].
  rewrite map_byte_of_val.
  repeat match goal with
         | |- context [encode_le ?n (decode_le ?l)] =>
             change (encode_le n (decode_le l))
               with (encode_le (length l) (decode_le l));
             rewrite (encode_decode_le l)
         end.
  reflexivity.
Qed.

Lemma IID_IDgnAppSupport_of_bytes :
  GUID_of_bytes (GUID_bytes IID_IDgnAppSupport) = IID_IDgnAppSupport.
Proof. vm_compute. reflexivity. Qed.

(** Sixteen bytes are those of [IID_IDgnAppSupport] exactly when they
    hold that GUID. *)
Lemma IID_IDgnAppSupport_bytes_iff (bs : list byte) :
  length bs = 16%nat ->
  bs = GUID_bytes IID_IDgnAppSupport <->
  GUID_of_bytes bs = IID_IDgnAppSupport.
Proof.
  intros Hlen. split.
  - intros ->. apply IID_IDgnAppSupport_of_bytes.
  - intros H. rewrite <- (GUID_bytes_of_bytes bs Hlen), H. reflexivity.
Qed.

Lemma registered_IIDs_eq : registered_IIDs = [IID_IDgnAppSupport].
Proof. reflexivity. Qed.

Lemma descriptor_at_0 : descriptor_at 0 IID_IDgnAppSupport.
Proof.
  split; [lia|]. exists _IDgnAppSupportProxyVtbl. split; reflexivity.
Qed.

(** ** The lookup, case by case *)

(** The body of [_natlink_IID_Lookup] with the macro expanded. *)
Lemma IID_Lookup_unfold (m : mem) (pIID pIndex : Z) :
  _natlink_IID_Lookup pIID pIndex m =
  match load_bytes m pIID 16 with
  | None => None
  | Some bs =>
      if memcmp_bytes bs (GUID_bytes IID_IDgnAppSupport) =? 0 then
        match store_int m pIndex 0 with
        | Some m' => Some (1, m')
        | None => None
        end
      else Some (0, m)
  end.
Proof.
  unfold _natlink_IID_Lookup, _natlink_CHECK_IID, IID_GENERIC_CHECK_IID.
  cbn [_natlink_ProxyVtblList lookup list_lookup].
  unfold memcmp, bind, read_bytes, ret, write_int.
  destruct (load_bytes m pIID 16) as [bs|]; [|reflexivity].
  change (take 16 (GUID_bytes (piid (header _IDgnAppSupportProxyVtbl))))
    with (GUID_bytes IID_IDgnAppSupport).
  destruct (memcmp_bytes bs (GUID_bytes IID_IDgnAppSupport) =? 0);
    [|reflexivity].
  destruct (store_int m pIndex 0); reflexivity.
Qed.

(** The identity at [pIID] is the registered one: the index is stored
    and 1 returned; the store is the only thing that can fault. *)
Lemma IID_Lookup_match (m : mem) (pIID pIndex : Z) :
  load_GUID m pIID = Some IID_IDgnAppSupport ->
  _natlink_IID_Lookup pIID pIndex m =
  match store_int m pIndex 0 with
  | Some m' => Some (1, m')
  | None => None
  end.
Proof.
  intros H. rewrite IID_Lookup_unfold. unfold load_GUID in H.
  destruct (load_bytes m pIID 16) as [bs|] eqn:E; [|discriminate].
  apply (inj Some) in H.
  apply IID_IDgnAppSupport_bytes_iff in H;
    [|eapply load_bytes_length, E].
  subst bs. rewrite memcmp_bytes_refl. reflexivity.
Qed.

(** Any other identity: 0 is returned and the memory is as it was;
    [pIndex] is not looked at. *)
Lemma IID_Lookup_mismatch (m : mem) (pIID pIndex : Z) (I : IID) :
  load_GUID m pIID = Some I ->
  I <> IID_IDgnAppSupport ->
  _natlink_IID_Lookup pIID pIndex m = Some (0, m).
Proof.
  intros H Hne. rewrite IID_Lookup_unfold. unfold load_GUID in H.
  destruct (load_bytes m pIID 16) as [bs|] eqn:E; [|discriminate].
  apply (inj Some) in H.
  destruct (memcmp_bytes bs (GUID_bytes IID_IDgnAppSupport) =? 0) eqn:C;
    [|reflexivity].
  exfalso. apply Hne. rewrite <- H.
  apply IID_IDgnAppSupport_bytes_iff; [eapply load_bytes_length, E|].
  apply Z.eqb_eq in C. apply memcmp_bytes_eq; [|exact C].
  rewrite (load_bytes_length _ _ _ _ E). reflexivity.
Qed.

(** The lookup returns whenever both pointers are good, and what it
    returns is decided by the identity alone. *)
Lemma IID_Lookup_cases (m : mem) (pIID pIndex : Z) (I : IID) :
  load_GUID m pIID = Some I ->
  valid_int m pIndex ->
  (I = IID_IDgnAppSupport /\
   exists m', store_int m pIndex 0 = Some m' /\
              _natlink_IID_Lookup pIID pIndex m = Some (1, m')) \/
  (I <> IID_IDgnAppSupport /\
   _natlink_IID_Lookup pIID pIndex m = Some (0, m)).
Proof.
  intros HI Hv. destruct (decide (I = IID_IDgnAppSupport)) as [->|Hne].
  - left. split; [reflexivity|].
    destruct (store_int_total m pIndex 0 Hv) as [m' Hm'].
    exists m'. split; [exact Hm'|].
    rewrite (IID_Lookup_match _ _ _ HI), Hm'. reflexivity.
  - right. split; [exact Hne|]. eapply IID_Lookup_mismatch; eassumption.
Qed.

(** Checking [valid_int] on a concrete memory. *)
Ltac solve_valid_int :=
  let i := fresh "i" in
  let Hi := fresh "Hi" in
  intros i Hi;
  assert (i = 0 \/ i = 1 \/ i = 2 \/ i = 3) as [-> | [-> | [-> | ->]]] by lia;
  vm_compute; eauto.

Lemma mem_with_IDgnAppSupport_valid :
  valid_int (mem_with IID_IDgnAppSupport 5) 16.
Proof. solve_valid_int. Qed.

Lemma mem_with_IDispatch_valid :
  valid_int (mem_with IID_IDispatch 5) 16.
Proof. solve_valid_int. Qed.

Lemma IID_IDispatch_not_registered : IID_IDispatch <> IID_IDgnAppSupport.
Proof. discriminate. Qed.

(** ** The identity lookup *)

(** C1. For every requested identity [I], [_natlink_IID_Lookup] reports
    success (returns 1) with the descriptor index stored through
    [pIndex] if and only if [I] is the single registered identity, the
    GUID of [IDgnAppSupport]; for every other identity it reports
    not-found (returns 0). *)
Theorem IID_Lookup_found_iff (m : mem) (pIID pIndex : Z) (I : IID) :
  load_GUID m pIID = Some I ->
  valid_int m pIndex ->
  exists r m',
    _natlink_IID_Lookup pIID pIndex m = Some (r, m') /\
    (r = 1 <-> I = IID_IDgnAppSupport) /\
    (r = 1 -> exists i, load_int m' pIndex = Some i /\ descriptor_at i I) /\
    (I <> IID_IDgnAppSupport -> r = 0) /\
    registered_IIDs = [IID_IDgnAppSupport].
Proof.
  intros HI Hv.
  destruct (IID_Lookup_cases m pIID pIndex I HI Hv)
    as [[-> (m' & Hst & Hrun)] | [Hne Hrun]].
  - exists 1, m'. repeat split; auto.
    + intros _. exists 0. split; [|exact descriptor_at_0].
      apply (load_store_int _ _ _ _ Hst).
    + intros Hne. contradiction.
  - exists 0, m. repeat split; auto; try discriminate.
    intros ->. contradiction.
Qed.

Lemma IID_Lookup_found_iff_witness :
  load_GUID (mem_with IID_IDgnAppSupport 5) 0 = Some IID_IDgnAppSupport /\
  valid_int (mem_with IID_IDgnAppSupport 5) 16 /\
  exists r m',
    _natlink_IID_Lookup 0 16 (mem_with IID_IDgnAppSupport 5) = Some (r, m') /\
    (r = 1 <-> IID_IDgnAppSupport = IID_IDgnAppSupport) /\
    (r = 1 -> exists i, load_int m' 16 = Some i
                        /\ descriptor_at i IID_IDgnAppSupport) /\
    (IID_IDgnAppSupport <> IID_IDgnAppSupport -> r = 0) /\
    registered_IIDs = [IID_IDgnAppSupport].
Proof.
  split; [vm_compute; reflexivity|].
  split; [exact mem_with_IDgnAppSupport_valid|].
  apply (IID_Lookup_found_iff (mem_with IID_IDgnAppSupport 5) 0 16).
  - vm_compute; reflexivity.
  - exact mem_with_IDgnAppSupport_valid.
Defined.

(** C2, as stated, fails: with the identity of [IDispatch] at [pIID] and
    an index cell holding 5, the lookup returns 0 and the cell still
    holds 5; no -1 is stored. *)
Lemma IID_Lookup_no_sentinel :
  load_GUID (mem_with IID_IDispatch 5) 0 = Some IID_IDispatch /\
  IID_IDispatch <> IID_IDgnAppSupport /\
  _natlink_IID_Lookup 0 16 (mem_with IID_IDispatch 5)
    = Some (0, mem_with IID_IDispatch 5) /\
  load_int (mem_with IID_IDispatch 5) 16 = Some 5 /\
  ~ (forall m pIID pIndex I,
        load_GUID m pIID = Some I -> I <> IID_IDgnAppSupport ->
        valid_int m pIndex ->
        exists m', _natlink_IID_Lookup pIID pIndex m = Some (0, m')
                   /\ load_int m' pIndex = Some (-1)).
Proof.
  assert (HI : load_GUID (mem_with IID_IDispatch 5) 0 = Some IID_IDispatch)
    by (vm_compute; reflexivity).
  assert (Hrun : _natlink_IID_Lookup 0 16 (mem_with IID_IDispatch 5)
                 = Some (0, mem_with IID_IDispatch 5))
    by (eapply IID_Lookup_mismatch;
        [exact HI | exact IID_IDispatch_not_registered]).
  assert (H5 : load_int (mem_with IID_IDispatch 5) 16 = Some 5)
    by (vm_compute; reflexivity).
  repeat split; auto using IID_IDispatch_not_registered.
  intros Hclaim.
  destruct (Hclaim _ 0 16 _ HI IID_IDispatch_not_registered
              mem_with_IDispatch_valid) as (m' & Hm' & Hidx).
  rewrite Hrun in Hm'. injection Hm' as <-.
  rewrite H5 in Hidx. discriminate.
Qed.

(** C2, amended. When the identity at [pIID] is not the registered one,
    the lookup returns 0 and leaves the memory, the index cell included,
    as it was.  It does not go through [pIndex], so it returns for any
    [pIndex], mapped or not. *)
Theorem IID_Lookup_not_found (m : mem) (pIID pIndex : Z) (I : IID) :
  load_GUID m pIID = Some I ->
  I <> IID_IDgnAppSupport ->
  _natlink_IID_Lookup pIID pIndex m = Some (0, m).
Proof.
  intros HI Hne. eapply IID_Lookup_mismatch; eassumption.
Qed.

(** At an index pointer that is not mapped (address 100). *)
Lemma IID_Lookup_not_found_witness :
  load_GUID (mem_with IID_IDispatch 5) 0 = Some IID_IDispatch /\
  IID_IDispatch <> IID_IDgnAppSupport /\
  _natlink_IID_Lookup 0 100 (mem_with IID_IDispatch 5)
    = Some (0, mem_with IID_IDispatch 5).
Proof.
  split; [vm_compute; reflexivity|].
  split; [discriminate|].
  apply (IID_Lookup_not_found (mem_with IID_IDispatch 5) 0 100 IID_IDispatch).
  - vm_compute; reflexivity.
  - discriminate.
Defined.

(** When the index pointer aliases the identity, a successful lookup
    overwrites part of the identity it was given: the next call at the
    same address is a call with another identity. *)
Example IID_Lookup_aliased :
  exists m1 I',
    _natlink_IID_Lookup 0 0 (mem_with IID_IDgnAppSupport 5) = Some (1, m1)
    /\ load_GUID m1 0 = Some I' /\ I' <> IID_IDgnAppSupport
    /\ _natlink_IID_Lookup 0 0 m1 = Some (0, m1).
Proof.
  assert (HI : load_GUID (mem_with IID_IDgnAppSupport 5) 0
               = Some IID_IDgnAppSupport) by (vm_compute; reflexivity).
  pose proof (IID_Lookup_match _ 0 0 HI) as Hrun.
  destruct (store_int (mem_with IID_IDgnAppSupport 5) 0 0) as [m1|] eqn:Hst;
    [|vm_compute in Hst; discriminate].
  assert (HI1 : load_GUID m1 0
                = Some (mkGUID 0 0x482a 0x484c
                          [0x94; 0x51; 0x7a; 0xcb; 0xa6; 0xf1; 0x27; 0x2f])).
  { vm_compute in Hst. injection Hst as <-. vm_compute. reflexivity. }
  eexists m1, _. split; [exact Hrun|]. split; [exact HI1|].
  split; [discriminate|].
  eapply IID_Lookup_mismatch; [exact HI1|discriminate].
Qed.

(** C7. Repeated lookups with the same identity return the same result
    and have no effect beyond the index they report: the call changes
    nothing outside the index cell, so the identity is still there when
    the cell does not overlap it; a second call on the memory the first
    one left returns the same value and leaves that memory unchanged;
    and in any other memory that holds the same identity the return
    value (and, on success, the index) is the same. *)
Theorem IID_Lookup_idempotent (m : mem) (pIID pIndex : Z) (I : IID) :
  load_GUID m pIID = Some I ->
  valid_int m pIndex ->
  exists r m1,
    _natlink_IID_Lookup pIID pIndex m = Some (r, m1) /\
    (forall a, ~ in_range pIndex 4 a -> m1 !! a = m !! a) /\
    ((forall a, in_range pIID 16 a -> ~ in_range pIndex 4 a) ->
     load_GUID m1 pIID = Some I) /\
    (load_GUID m1 pIID = Some I ->
     _natlink_IID_Lookup pIID pIndex m1 = Some (r, m1)) /\
    (forall m2 pIID2 pIndex2 r2 m3,
        load_GUID m2 pIID2 = Some I ->
        _natlink_IID_Lookup pIID2 pIndex2 m2 = Some (r2, m3) ->
        r2 = r /\ (r = 1 -> load_int m3 pIndex2 = load_int m1 pIndex)).
Proof.
  intros HI Hv.
  destruct (IID_Lookup_cases m pIID pIndex I HI Hv)
    as [[-> (m1 & Hst & Hrun)] | [Hne Hrun]].
  - exists 1, m1. split; [exact Hrun|]. split; [|split; [|split]].
    + intros a Ha. eapply store_int_frame; eassumption.
    + intros Hdisj. rewrite <- HI. unfold load_GUID.
      rewrite (load_bytes_ext m m1); [reflexivity|].
      intros a Ha. eapply store_int_frame; [exact Hst|]. apply Hdisj, Ha.
    + intros HI1. rewrite (IID_Lookup_match _ _ _ HI1).
      rewrite (store_int_same _ _ _ _ Hst). reflexivity.
    + intros m2 pIID2 pIndex2 r2 m3 HI2 Hrun2.
      rewrite (IID_Lookup_match _ _ _ HI2) in Hrun2.
      destruct (store_int m2 pIndex2 0) as [m3'|] eqn:Hst2; [|discriminate].
      injection Hrun2 as <- <-. split; [reflexivity|]. intros _.
      rewrite (load_store_int _ _ _ _ Hst), (load_store_int _ _ _ _ Hst2).
      reflexivity.
  - exists 0, m. split; [exact Hrun|]. split; [|split; [|split]].
    + reflexivity.
    + intros _. exact HI.
    + intros _. exact Hrun.
    + intros m2 pIID2 pIndex2 r2 m3 HI2 Hrun2.
      rewrite (IID_Lookup_mismatch _ _ _ _ HI2 Hne) in Hrun2.
      injection Hrun2 as <- <-. split; [reflexivity|]. discriminate.
Qed.

Lemma IID_Lookup_idempotent_witness :
  load_GUID (mem_with IID_IDgnAppSupport 5) 0 = Some IID_IDgnAppSupport /\
  valid_int (mem_with IID_IDgnAppSupport 5) 16 /\
  exists r m1,
    _natlink_IID_Lookup 0 16 (mem_with IID_IDgnAppSupport 5) = Some (r, m1) /\
    (forall a, ~ in_range 16 4 a ->
               m1 !! a = mem_with IID_IDgnAppSupport 5 !! a) /\
    ((forall a, in_range 0 16 a -> ~ in_range 16 4 a) ->
     load_GUID m1 0 = Some IID_IDgnAppSupport) /\
    (load_GUID m1 0 = Some IID_IDgnAppSupport ->
     _natlink_IID_Lookup 0 16 m1 = Some (r, m1)) /\
    (forall m2 pIID2 pIndex2 r2 m3,
        load_GUID m2 pIID2 = Some IID_IDgnAppSupport ->
        _natlink_IID_Lookup pIID2 pIndex2 m2 = Some (r2, m3) ->
        r2 = r /\ (r = 1 -> load_int m3 pIndex2 = load_int m1 16)).
Proof.
  split; [vm_compute; reflexivity|].
  split; [exact mem_with_IDgnAppSupport_valid|].
  apply (IID_Lookup_idempotent (mem_with IID_IDgnAppSupport 5) 0 16).
  - vm_compute; reflexivity.
  - exact mem_with_IDgnAppSupport_valid.
Defined.

(** C10. The lookup writes through [pIndex] only on success, and then
    it stores 0, the only valid index, and nothing outside the index
    cell changes; when it returns failure the memory, the index cell
    included, is exactly as before. *)
Theorem IID_Lookup_writes_only_on_success
    (m : mem) (pIID pIndex : Z) (I : IID) :
  load_GUID m pIID = Some I ->
  valid_int m pIndex ->
  exists r m',
    _natlink_IID_Lookup pIID pIndex m = Some (r, m') /\
    (r = 0 \/ r = 1) /\
    (r = 0 -> m' = m) /\
    (r = 1 -> store_int m pIndex 0 = Some m'
              /\ load_int m' pIndex = Some 0
              /\ forall a, ~ in_range pIndex 4 a -> m' !! a = m !! a) /\
    (m' <> m -> r = 1).
Proof.
  intros HI Hv.
  destruct (IID_Lookup_cases m pIID pIndex I HI Hv)
    as [[-> (m' & Hst & Hrun)] | [Hne Hrun]].
  - exists 1, m'. split; [exact Hrun|].
    split; [right; reflexivity|]. split; [discriminate|].
    split; [|reflexivity].
    intros _. split; [exact Hst|]. split.
    + apply (load_store_int _ _ _ _ Hst).
    + intros a Ha. eapply store_int_frame; eassumption.
  - exists 0, m. split; [exact Hrun|].
    split; [left; reflexivity|]. split; [reflexivity|].
    split; [discriminate|]. intros Hc. contradiction.
Qed.

Lemma IID_Lookup_writes_only_on_success_witness :
  load_GUID (mem_with IID_IDispatch 5) 0 = Some IID_IDispatch /\
  valid_int (mem_with IID_IDispatch 5) 16 /\
  exists r m',
    _natlink_IID_Lookup 0 16 (mem_with IID_IDispatch 5) = Some (r, m') /\
    (r = 0 \/ r = 1) /\
    (r = 0 -> m' = mem_with IID_IDispatch 5) /\
    (r = 1 -> store_int (mem_with IID_IDispatch 5) 16 0 = Some m'
              /\ load_int m' 16 = Some 0
              /\ forall a, ~ in_range 16 4 a ->
                           m' !! a = mem_with IID_IDispatch 5 !! a) /\
    (m' <> mem_with IID_IDispatch 5 -> r = 1).
Proof.
  split; [vm_compute; reflexivity|].
  split; [exact mem_with_IDispatch_valid|].
  apply (IID_Lookup_writes_only_on_success
           (mem_with IID_IDispatch 5) 0 16 IID_IDispatch).
  - vm_compute; reflexivity.
  - exact mem_with_IDispatch_valid.
Defined.

(** ** The tables *)

(** Case analysis on an ordinal of the table. *)
Ltac ordinal_cases k :=
  let H := fresh in
  assert (H : k = 0 \/ k = 1 \/ k = 2 \/ k = 3 \/ k = 4 \/ k = 5 \/ k = 6)
    by lia;
  destruct H as [-> | [-> | [-> | [-> | [-> | [-> | ->]]]]]].

Lemma tp_index_before {A} (p : table_ptr A) (k : Z) :
  tp_offset p + k < 0 -> tp_index p k = None.
Proof.
  intros H. unfold tp_index. cbv zeta.
  destruct (tp_offset p + k <? 0) eqn:E; [reflexivity|].
  apply Z.ltb_ge in E. lia.
Qed.

Lemma tp_index_after {A} (p : table_ptr A) (k : Z) :
  Z.of_nat (length (tp_array p)) <= tp_offset p + k -> tp_index p k = None.
Proof.
  intros H. unfold tp_index. cbv zeta.
  destruct (tp_offset p + k <? 0); [reflexivity|].
  apply lookup_ge_None. lia.
Qed.

(** The dispatch table holds an entry for the ordinals 3 to 6 and for no
    other; each entry is the forwarding function. *)
Lemma pDispatchTable_entries (k : Z) :
  tp_index (pDispatchTable (stub_header _IDgnAppSupportStubVtbl)) k =
  if (3 <=? k) && (k <? 7) then Some STUB_FORWARDING_FUNCTION else None.
Proof.
  destruct (3 <=? k) eqn:E3; cbn [andb].
  - apply Z.leb_le in E3. destruct (k <? 7) eqn:E7.
    + apply Z.ltb_lt in E7.
      assert (H : k = 3 \/ k = 4 \/ k = 5 \/ k = 6) by lia.
      destruct H as [-> | [-> | [-> | ->]]]; reflexivity.
    + apply Z.ltb_ge in E7. apply tp_index_after. cbn. lia.
  - apply Z.leb_gt in E3. apply tp_index_before. cbn. lia.
Qed.

(** The offset table: the no-format marker for the ordinals 3 to 6, the
    closing 0 behind them, nothing elsewhere. *)
Lemma FmtStringOffset_entries (k : Z) :
  tp_index (FmtStringOffset IDgnAppSupport_ServerInfo) k =
  if (3 <=? k) && (k <? 7) then Some NO_FORMAT_OFFSET
  else if k =? 7 then Some 0 else None.
Proof.
  destruct (3 <=? k) eqn:E3; cbn [andb].
  - apply Z.leb_le in E3. destruct (k <? 7) eqn:E7.
    + apply Z.ltb_lt in E7.
      assert (H : k = 3 \/ k = 4 \/ k = 5 \/ k = 6) by lia.
      destruct H as [-> | [-> | [-> | ->]]]; reflexivity.
    + apply Z.ltb_ge in E7. destruct (k =? 7) eqn:E.
      * apply Z.eqb_eq in E. subst k. reflexivity.
      * apply Z.eqb_neq in E. apply tp_index_after. cbn. lia.
  - apply Z.leb_gt in E3.
    destruct (k =? 7) eqn:E; [apply Z.eqb_eq in E; lia|].
    apply tp_index_before. cbn. lia.
Qed.

Lemma has_format_none (k : Z) :
  k < 7 -> has_format (FmtStringOffset IDgnAppSupport_ServerInfo) k = false.
Proof.
  intros Hk. unfold has_format. rewrite FmtStringOffset_entries.
  destruct ((3 <=? k) && (k <? 7)); [reflexivity|].
  destruct (k =? 7) eqn:E; [apply Z.eqb_eq in E; lia|reflexivity].
Qed.

Lemma proxy_slot_in_table (k : Z) :
  is_Some (proxy_slot _IDgnAppSupportProxyVtbl k) <-> 0 <= k < 7.
Proof.
  unfold proxy_slot. split.
  - intros [x Hx]. destruct (k <? 0) eqn:E; [discriminate|].
    apply Z.ltb_ge in E. apply lookup_lt_Some in Hx.
    change (length (Vtbl _IDgnAppSupportProxyVtbl)) with 7%nat in Hx. lia.
  - intros Hk. ordinal_cases k; eexists; reflexivity.
Qed.

(** C3. For every ordinal [k] with [0 <= k < 7] the stub dispatch
    delegates the call to the generic base-capability handler and
    succeeds (through the forwarding entry of the table where the table
    has one); for every [k >= 7] or [k < 0] it fails with
    [OrdinalOutOfRange] and has taken no step, so no argument was
    deserialized. *)
Theorem Stub_dispatch_ordinals (k : Z) :
  (0 <= k < 7 ->
   exists f,
     Stub_dispatch _IDgnAppSupportStubVtbl k = ([Delegate k f], Dispatched)
     /\ existsb deserializes (fst (Stub_dispatch _IDgnAppSupportStubVtbl k))
        = false
     /\ (3 <= k -> f = Some STUB_FORWARDING_FUNCTION)) /\
  (k >= 7 \/ k < 0 ->
   Stub_dispatch _IDgnAppSupportStubVtbl k = ([], Failed OrdinalOutOfRange)).
Proof.
  split.
  - intros Hk.
    exists (tp_index (pDispatchTable (stub_header _IDgnAppSupportStubVtbl)) k).
    assert (E : Stub_dispatch _IDgnAppSupportStubVtbl k =
                ([Delegate k (tp_index (pDispatchTable
                   (stub_header _IDgnAppSupportStubVtbl)) k)], Dispatched)).
    { unfold Stub_dispatch. cbv zeta.
      change (DispatchTableCount (stub_header _IDgnAppSupportStubVtbl)) with 7.
      unfold BASE_SLOTS.
      destruct (k <? 0) eqn:E0; [apply Z.ltb_lt in E0; lia|].
      destruct (7 <=? k) eqn:E7; [apply Z.leb_le in E7; lia|].
      destruct (k <? 7) eqn:E7'; [reflexivity|apply Z.ltb_ge in E7'; lia]. }
    split; [exact E|]. split; [rewrite E; reflexivity|].
    intros H3. rewrite pDispatchTable_entries.
    destruct (3 <=? k) eqn:E3; [|apply Z.leb_gt in E3; lia].
    destruct (k <? 7) eqn:E7; [reflexivity|apply Z.ltb_ge in E7; lia].
  - intros Hk. unfold Stub_dispatch. cbv zeta.
    change (DispatchTableCount (stub_header _IDgnAppSupportStubVtbl)) with 7.
    destruct (k <? 0) eqn:E0; [reflexivity|].
    destruct (7 <=? k) eqn:E7; [reflexivity|].
    apply Z.ltb_ge in E0. apply Z.leb_gt in E7. lia.
Qed.

Lemma Stub_dispatch_ordinals_witness :
  (0 <= 4 < 7 /\
   exists f,
     Stub_dispatch _IDgnAppSupportStubVtbl 4 = ([Delegate 4 f], Dispatched)
     /\ existsb deserializes (fst (Stub_dispatch _IDgnAppSupportStubVtbl 4))
        = false
     /\ (3 <= 4 -> f = Some STUB_FORWARDING_FUNCTION)) /\
  ((7 >= 7 \/ 7 < 0) /\
   Stub_dispatch _IDgnAppSupportStubVtbl 7 = ([], Failed OrdinalOutOfRange)).
Proof.
  split.
  - split; [lia|]. apply (proj1 (Stub_dispatch_ordinals 4)). lia.
  - split; [left; lia|]. apply (proj2 (Stub_dispatch_ordinals 7)). left; lia.
Defined.

(** C4. The interface descriptor exposes a method table of exactly 7
    slots: 3 base-capability ([IUnknown]) slots, 4 dispatch-capability
    ([IDispatch]) slots and no slot of [IDgnAppSupport] itself.  The
    proxy table and the stub header agree on the count, the proxy table
    has a slot for the ordinals 0 to 6 and no other, and the tables
    biased by 3 cover the four [IDispatch] slots. *)
Theorem IDgnAppSupport_slot_count :
  length (Vtbl _IDgnAppSupportProxyVtbl) = 7%nat /\
  DispatchTableCount (stub_header _IDgnAppSupportStubVtbl) = 7 /\
  length IDgnAppSupport_slot_names = 7%nat /\
  slots_of IUnknown = 3%nat /\
  slots_of IDispatch = 4%nat /\
  slots_of IDgnAppSupport = 0%nat /\
  (forall k, is_Some (proxy_slot _IDgnAppSupportProxyVtbl k) <-> 0 <= k < 7) /\
  (forall k, is_Some (tp_index (pDispatchTable
                        (stub_header _IDgnAppSupportStubVtbl)) k)
             <-> 3 <= k < 7) /\
  piid (header _IDgnAppSupportProxyVtbl) = IID_IDgnAppSupport /\
  stub_piid (stub_header _IDgnAppSupportStubVtbl) = IID_IDgnAppSupport.
Proof.
  repeat match goal with |- _ /\ _ => split end; try reflexivity.
  - exact proxy_slot_in_table.
  - intros k. rewrite pDispatchTable_entries. split.
    + intros [f Hf]. destruct (3 <=? k) eqn:E3; [|discriminate].
      destruct (k <? 7) eqn:E7; [|discriminate].
      apply Z.leb_le in E3. apply Z.ltb_lt in E7. lia.
    + intros Hk. destruct (3 <=? k) eqn:E3; [|apply Z.leb_gt in E3; lia].
      destruct (k <? 7) eqn:E7; [|apply Z.ltb_ge in E7; lia].
      eexists; reflexivity.
Qed.

(** C5. In the proxy table the slots 0-2 ([QueryInterface], [AddRef],
    [Release]) are bound to the generic [IUnknown] proxy functions, and
    the four dispatch-capability slots 3-6 are null: a call through one
    of them finds no function, and nothing in the unit gives these
    slots a marshaling description (no stubless-proxy information in
    the header, no format-string offset). *)
Theorem ProxyVtbl_slots :
  Proxy_call _IDgnAppSupportProxyVtbl 0 = inr IUnknown_QueryInterface_Proxy /\
  Proxy_call _IDgnAppSupportProxyVtbl 1 = inr IUnknown_AddRef_Proxy /\
  Proxy_call _IDgnAppSupportProxyVtbl 2 = inr IUnknown_Release_Proxy /\
  pStublessProxyInfo (header _IDgnAppSupportProxyVtbl) = None /\
  (forall k, 3 <= k < 7 ->
     proxy_slot _IDgnAppSupportProxyVtbl k = Some None /\
     Proxy_call _IDgnAppSupportProxyVtbl k = inl NullSlot /\
     has_format (ProxyInfo_FormatStringOffset IDgnAppSupport_ProxyInfo) k
       = false).
Proof.
  repeat match goal with |- _ /\ _ => split end; try reflexivity.
  intros k Hk.
  assert (H : k = 3 \/ k = 4 \/ k = 5 \/ k = 6) by lia.
  destruct H as [-> | [-> | [-> | ->]]]; repeat split; reflexivity.
Qed.

Lemma ProxyVtbl_slots_witness :
  3 <= 6 < 7 /\
  proxy_slot _IDgnAppSupportProxyVtbl 6 = Some None /\
  Proxy_call _IDgnAppSupportProxyVtbl 6 = inl NullSlot /\
  has_format (ProxyInfo_FormatStringOffset IDgnAppSupport_ProxyInfo) 6
    = false.
Proof.
  split; [lia|].
  apply (proj2 (proj2 (proj2 (proj2 ProxyVtbl_slots))) 6). lia.
Defined.

(** C6, as stated, fails: the format strings are not zero-length.  The
    procedure format string, which the server information points to,
    has one byte and the type format string three. *)
Lemma FormatString_not_zero_length :
  length (Format natlink__MIDL_ProcFormatString) = 1%nat /\
  length (ProcString (pServerInfo (stub_header _IDgnAppSupportStubVtbl)))
    = 1%nat /\
  length (Format natlink__MIDL_TypeFormatString) = 3%nat /\
  Format natlink__MIDL_ProcFormatString <> [].
Proof. repeat split; discriminate. Qed.

(** C6, amended. The format strings hold no marshaling description:
    the procedure format string is the single byte 0 and the type
    format string three bytes 0, as long as their declared sizes; no
    slot of the table has a format-string offset of its own, and the
    slots 3-6 carry the no-format marker and a forwarding stub entry, so
    every method falls back to generic delegation. *)
Theorem FormatStrings_describe_no_method :
  Format natlink__MIDL_ProcFormatString = [Byte.x00] /\
  length (Format natlink__MIDL_ProcFormatString) = PROC_FORMAT_STRING_SIZE /\
  Format natlink__MIDL_TypeFormatString = [Byte.x00; Byte.x00; Byte.x00] /\
  length (Format natlink__MIDL_TypeFormatString) = TYPE_FORMAT_STRING_SIZE /\
  (forall k, 0 <= k < DispatchTableCount (stub_header _IDgnAppSupportStubVtbl) ->
     has_format (FmtStringOffset IDgnAppSupport_ServerInfo) k = false /\
     has_format (ProxyInfo_FormatStringOffset IDgnAppSupport_ProxyInfo) k
       = false /\
     (3 <= k ->
      tp_index (FmtStringOffset IDgnAppSupport_ServerInfo) k
        = Some NO_FORMAT_OFFSET /\
      tp_index (pDispatchTable (stub_header _IDgnAppSupportStubVtbl)) k
        = Some STUB_FORWARDING_FUNCTION)).
Proof.
  repeat match goal with |- _ /\ _ => split end; try reflexivity.
  intros k.
  change (DispatchTableCount (stub_header _IDgnAppSupportStubVtbl)) with 7.
  intros Hk. split; [|split; [|intros H3; split]].
  - apply has_format_none. lia.
  - apply (has_format_none k). lia.
  - rewrite FmtStringOffset_entries.
    destruct (3 <=? k) eqn:E3; [|apply Z.leb_gt in E3; lia].
    destruct (k <? 7) eqn:E7; [reflexivity|apply Z.ltb_ge in E7; lia].
  - rewrite pDispatchTable_entries.
    destruct (3 <=? k) eqn:E3; [|apply Z.leb_gt in E3; lia].
    destruct (k <? 7) eqn:E7; [reflexivity|apply Z.ltb_ge in E7; lia].
Qed.

Lemma FormatStrings_describe_no_method_witness :
  0 <= 3 < DispatchTableCount (stub_header _IDgnAppSupportStubVtbl) /\
  has_format (FmtStringOffset IDgnAppSupport_ServerInfo) 3 = false /\
  has_format (ProxyInfo_FormatStringOffset IDgnAppSupport_ProxyInfo) 3
    = false /\
  (3 <= 3 ->
   tp_index (FmtStringOffset IDgnAppSupport_ServerInfo) 3
     = Some NO_FORMAT_OFFSET /\
   tp_index (pDispatchTable (stub_header _IDgnAppSupportStubVtbl)) 3
     = Some STUB_FORWARDING_FUNCTION).
Proof.
  assert (Hk : 0 <= 3 < DispatchTableCount (stub_header _IDgnAppSupportStubVtbl))
    by (cbn; lia).
  split; [exact Hk|].
  apply (proj2 (proj2 (proj2 (proj2 FormatStrings_describe_no_method))) 3 Hk).
Defined.

(** C8. The transfer syntax identifier is the GUID
    {8a885d04-1ceb-11c9-9fe8-08002b104860} with version 2.0. *)
Theorem RpcTransferSyntax_value :
  GUID_string (SyntaxGUID _RpcTransferSyntax)
    = "{8a885d04-1ceb-11c9-9fe8-08002b104860}"%string /\
  MajorVersion (SyntaxVersion _RpcTransferSyntax) = 2 /\
  MinorVersion (SyntaxVersion _RpcTransferSyntax) = 0 /\
  GUID_bytes (SyntaxGUID _RpcTransferSyntax)
    = map byte_of [0x04; 0x5d; 0x88; 0x8a; 0xeb; 0x1c; 0xc9; 0x11;
                   0x9f; 0xe8; 0x08; 0x00; 0x2b; 0x10; 0x48; 0x60].
Proof. repeat split; vm_compute; reflexivity. Qed.

(** ** The version gate *)






(* ================================================================== *)
(** * Further properties of the unit *)

(** ** More on loads and stores *)

Lemma load_bytes_lookup (m : mem) (p : Z) (n : nat) (bs : list byte) :
  load_bytes m p n = Some bs ->
  forall i : nat, (i < n)%nat -> m !! (p + Z.of_nat i) = bs !! i.
Proof.
  revert p bs. induction n as [|n IH]; intros p bs H i Hi; [lia|].
  cbn [load_bytes] in H.
  destruct (m !! p) as [b|] eqn:Eb; [|discriminate].
  destruct (load_bytes m (p + 1) n) as [bs'|] eqn:E; [|discriminate].
  injection H as <-. destruct i as [|i].
  - rewrite Z.add_0_r. exact Eb.
  - replace (p + Z.of_nat (S i)) with (p + 1 + Z.of_nat i) by lia.
    cbn [lookup list_lookup]. apply (IH _ _ E). lia.
Qed.

Lemma load_bytes_mapped (m : mem) (p : Z) (n : nat) :
  is_Some (load_bytes m p n) ->
  forall i, 0 <= i < Z.of_nat n -> is_Some (m !! (p + i)).
Proof.
  intros [bs H] i Hi.
  pose proof (load_bytes_lookup _ _ _ _ H (Z.to_nat i)) as L.
  rewrite Z2Nat.id in L by lia. rewrite L by lia.
  apply lookup_lt_is_Some. rewrite (load_bytes_length _ _ _ _ H). lia.
Qed.

(** A store goes through only to mapped addresses. *)
Lemma store_bytes_mapped (bs : list byte) (m m' : mem) (p : Z) :
  store_bytes m p bs = Some m' ->
  forall i, 0 <= i < Z.of_nat (length bs) -> is_Some (m !! (p + i)).
Proof.
  revert m p. induction bs as [|b bs IH]; intros m p H i Hi;
    [cbn in Hi; lia|].
  cbn [store_bytes] in H.
  destruct (m !! p) as [b0|] eqn:E; [|discriminate].
  destruct (decide (i = 0)) as [->|Hne].
  - rewrite Z.add_0_r, E. eauto.
  - pose proof (IH _ _ H (i - 1)) as Hm.
    replace (p + 1 + (i - 1)) with (p + i) in Hm by lia.
    rewrite lookup_insert_ne in Hm by lia.
    apply Hm. cbn [length] in Hi. lia.
Qed.

Lemma store_int_defined (m : mem) (p v : Z) :
  is_Some (store_int m p v) <-> valid_int m p.
Proof.
  split.
  - intros [m' H] i Hi. eapply store_bytes_mapped; [exact H|].
    rewrite length_encode_le. exact Hi.
  - apply store_int_total.
Qed.

(** A store maps no new address and unmaps none. *)
Lemma store_bytes_dom (bs : list byte) (m m' : mem) (p : Z) :
  store_bytes m p bs = Some m' -> dom m' = dom m.
Proof.
  revert m p. induction bs as [|b bs IH]; intros m p H; cbn [store_bytes] in H.
  - injection H as <-. reflexivity.
  - destruct (m !! p) as [b0|] eqn:E; [|discriminate].
    rewrite (IH _ _ H). apply dom_insert_lookup_L. eauto.
Qed.

(** After a store each address of the object holds the byte written. *)
Lemma store_bytes_lookup (bs : list byte) (m m' : mem) (p : Z) :
  store_bytes m p bs = Some m' ->
  forall i : nat, (i < length bs)%nat -> m' !! (p + Z.of_nat i) = bs !! i.
Proof.
  intros H. apply load_bytes_lookup. eapply load_store_bytes, H.
Qed.

(** ** What a return of the lookup tells *)

Lemma IID_Lookup_inv (m m' : mem) (pIID pIndex r : Z) :
  _natlink_IID_Lookup pIID pIndex m = Some (r, m') ->
  exists I, load_GUID m pIID = Some I /\
    ((I = IID_IDgnAppSupport /\ r = 1 /\ store_int m pIndex 0 = Some m') \/
     (I <> IID_IDgnAppSupport /\ r = 0 /\ m' = m)).
Proof.
  intros H.
  destruct (load_GUID m pIID) as [I|] eqn:HI.
  - exists I. split; [reflexivity|].
    destruct (decide (I = IID_IDgnAppSupport)) as [->|Hne].
    + left. rewrite (IID_Lookup_match _ _ _ HI) in H.
      destruct (store_int m pIndex 0) as [m0|]; [|discriminate].
      injection H as <- <-. auto.
    + right. rewrite (IID_Lookup_mismatch _ _ _ _ HI Hne) in H.
      injection H as <- <-. auto.
  - rewrite IID_Lookup_unfold in H. unfold load_GUID in HI.
    destruct (load_bytes m pIID 16); discriminate.
Qed.

(** X1. The lookup returns exactly when the sixteen bytes at [pIID] can
    be read and, in case they hold the registered identity, the [int]
    at [pIndex] can be written; in every other situation (an unmapped
    or partly mapped [pIID], a match with a bad [pIndex]) it faults. *)
Theorem IID_Lookup_defined (m : mem) (pIID pIndex : Z) :
  is_Some (_natlink_IID_Lookup pIID pIndex m) <->
  exists I, load_GUID m pIID = Some I /\
            (I = IID_IDgnAppSupport -> valid_int m pIndex).
Proof.
  split.
  - intros [[r m'] H].
    destruct (IID_Lookup_inv _ _ _ _ _ H)
      as (I & HI & [(-> & _ & Hst) | (Hne & _ & _)]).
    + exists IID_IDgnAppSupport. split; [exact HI|]. intros _.
      apply (store_int_defined m pIndex 0). eauto.
    + exists I. split; [exact HI|]. intros ->. contradiction.
  - intros (I & HI & Hv).
    destruct (decide (I = IID_IDgnAppSupport)) as [->|Hne].
    + rewrite (IID_Lookup_match _ _ _ HI).
      destruct (store_int_total m pIndex 0 (Hv eq_refl)) as [m' ->]. eauto.
    + rewrite (IID_Lookup_mismatch _ _ _ _ HI Hne). eauto.
Qed.

(** X2. The lookup maps no address and unmaps none: whatever it
    returns, the memory it leaves has the same set of mapped addresses as
    the memory it was given. *)
Theorem IID_Lookup_dom (m m' : mem) (pIID pIndex r : Z) :
  _natlink_IID_Lookup pIID pIndex m = Some (r, m') ->
  dom m' = dom m.
Proof.
  intros H.
  destruct (IID_Lookup_inv _ _ _ _ _ H)
    as (I & HI & [(_ & _ & Hst) | (_ & _ & ->)]); [|reflexivity].
  eapply store_bytes_dom, Hst.
Qed.

Lemma IID_Lookup_success_run :
  exists m', _natlink_IID_Lookup 0 16 (mem_with IID_IDgnAppSupport 5)
             = Some (1, m').
Proof.
  destruct (store_int_total _ 16 0 mem_with_IDgnAppSupport_valid) as [m' Hst].
  exists m'. rewrite IID_Lookup_match by (vm_compute; reflexivity).
  rewrite Hst. reflexivity.
Defined.

Lemma IID_Lookup_dom_witness :
  exists m',
    _natlink_IID_Lookup 0 16 (mem_with IID_IDgnAppSupport 5) = Some (1, m')
    /\ dom m' = dom (mem_with IID_IDgnAppSupport 5).
Proof.
  destruct IID_Lookup_success_run as [m' Hrun].
  exists m'. split; [exact Hrun|].
  exact (IID_Lookup_dom _ m' 0 16 1 Hrun).
Defined.

(** X3. An index the lookup routine of [natlink_ProxyFileInfo] reports
    is usable on every list of the file information: it lies below
    [TableSize], and at that index there are a proxy table and a stub
    table that both carry the requested identity and agree on the
    number of slots, an interface name and a delegated base identity. *)
Theorem IID_Lookup_index_usable (m m' : mem) (pIID pIndex : Z) :
  pIIDLookupRtn natlink_ProxyFileInfo pIID pIndex m = Some (1, m') ->
  exists i I pvt svt name base,
    load_int m' pIndex = Some i /\
    0 <= i < TableSize natlink_ProxyFileInfo /\
    load_GUID m pIID = Some I /\
    pProxyVtblList natlink_ProxyFileInfo !! Z.to_nat i = Some (Some pvt) /\
    piid (header pvt) = I /\
    pStubVtblList natlink_ProxyFileInfo !! Z.to_nat i = Some (Some svt) /\
    stub_piid (stub_header svt) = I /\
    Z.of_nat (length (Vtbl pvt)) = DispatchTableCount (stub_header svt) /\
    pNamesArray natlink_ProxyFileInfo !! Z.to_nat i = Some (Some name) /\
    pDelegatedIIDs natlink_ProxyFileInfo !! Z.to_nat i = Some (Some base).
Proof.
  cbn [pIIDLookupRtn natlink_ProxyFileInfo]. intros H.
  destruct (IID_Lookup_inv _ _ _ _ _ H)
    as (I & HI & [(-> & _ & Hst) | (_ & Hr & _)]); [|discriminate].
  exists 0, IID_IDgnAppSupport, _IDgnAppSupportProxyVtbl,
         _IDgnAppSupportStubVtbl, "IDgnAppSupport"%string, IID_IDispatch.
  split; [apply (load_store_int _ _ _ _ Hst)|].
  split; [cbn; lia|].
  split; [exact HI|].
  repeat split.
Qed.

Lemma IID_Lookup_index_usable_witness :
  exists m',
    pIIDLookupRtn natlink_ProxyFileInfo 0 16 (mem_with IID_IDgnAppSupport 5)
      = Some (1, m') /\
    exists i I pvt svt name base,
      load_int m' 16 = Some i /\
      0 <= i < TableSize natlink_ProxyFileInfo /\
      load_GUID (mem_with IID_IDgnAppSupport 5) 0 = Some I /\
      pProxyVtblList natlink_ProxyFileInfo !! Z.to_nat i = Some (Some pvt) /\
      piid (header pvt) = I /\
      pStubVtblList natlink_ProxyFileInfo !! Z.to_nat i = Some (Some svt) /\
      stub_piid (stub_header svt) = I /\
      Z.of_nat (length (Vtbl pvt)) = DispatchTableCount (stub_header svt) /\
      pNamesArray natlink_ProxyFileInfo !! Z.to_nat i = Some (Some name) /\
      pDelegatedIIDs natlink_ProxyFileInfo !! Z.to_nat i = Some (Some base).
Proof.
  destruct IID_Lookup_success_run as [m' Hrun].
  exists m'. split; [exact Hrun|].
  exact (IID_Lookup_index_usable _ m' 0 16 Hrun).
Defined.

(** X4. The lookup looks at nothing but the sixteen bytes at [pIID] and
    the four at [pIndex]: in two memories that agree on these
    addresses it faults in both or returns the same value in both, and
    the memories it leaves agree on these addresses again. *)
Theorem IID_Lookup_local (m1 m2 : mem) (pIID pIndex : Z) :
  (forall a, in_range pIID 16 a \/ in_range pIndex 4 a ->
             m2 !! a = m1 !! a) ->
  match _natlink_IID_Lookup pIID pIndex m1,
        _natlink_IID_Lookup pIID pIndex m2 with
  | Some (r1, m1'), Some (r2, m2') =>
      r1 = r2 /\
      forall a, in_range pIID 16 a \/ in_range pIndex 4 a ->
                m2' !! a = m1' !! a
  | None, None => True
  | _, _ => False
  end.
Proof.
  intros Hag.
  assert (Hld : load_bytes m2 pIID 16 = load_bytes m1 pIID 16).
  { apply load_bytes_ext. intros a Ha. apply Hag. left. exact Ha. }
  assert (Hv : valid_int m1 pIndex <-> valid_int m2 pIndex).
  { unfold valid_int. split; intros H i Hi.
    - rewrite Hag by (right; unfold in_range; lia). auto.
    - rewrite <- Hag by (right; unfold in_range; lia). auto. }
  rewrite !IID_Lookup_unfold, Hld.
  destruct (load_bytes m1 pIID 16) as [bs|]; [|exact I].
  destruct (memcmp_bytes bs (GUID_bytes IID_IDgnAppSupport) =? 0);
    [|split; [reflexivity|exact Hag]].
  destruct (store_int m1 pIndex 0) as [m1'|] eqn:H1;
    destruct (store_int m2 pIndex 0) as [m2'|] eqn:H2.
  - split; [reflexivity|]. intros a Ha.
    destruct (decide (in_range pIndex 4 a)) as [Hin|Hout].
    + unfold store_int in H1, H2. unfold in_range in Hin.
      replace a with (pIndex + Z.of_nat (Z.to_nat (a - pIndex))) by lia.
      rewrite (store_bytes_lookup _ _ _ _ H1),
              (store_bytes_lookup _ _ _ _ H2);
        [reflexivity| |]; rewrite length_encode_le; lia.
    + rewrite (store_int_frame _ _ _ _ _ H1 Hout),
              (store_int_frame _ _ _ _ _ H2 Hout).
      apply Hag, Ha.
  - assert (Hs : is_Some (store_int m2 pIndex 0)).
    { apply store_int_total, Hv.
      apply (store_int_defined m1 pIndex 0). eauto. }
    rewrite H2 in Hs. destruct Hs; discriminate.
  - assert (Hs : is_Some (store_int m1 pIndex 0)).
    { apply store_int_total, Hv.
      apply (store_int_defined m2 pIndex 0). eauto. }
    rewrite H1 in Hs. destruct Hs; discriminate.
  - exact I.
Qed.

Lemma mem_with_extra_agrees (a : Z) :
  in_range 0 16 a \/ in_range 16 4 a ->
  <[100 := Byte.x07]> (mem_with IID_IDgnAppSupport 5) !! a
  = mem_with IID_IDgnAppSupport 5 !! a.
Proof.
  intros Ha. apply lookup_insert_ne. unfold in_range in Ha. lia.
Qed.

Lemma IID_Lookup_local_witness :
  (forall a, in_range 0 16 a \/ in_range 16 4 a ->
     <[100 := Byte.x07]> (mem_with IID_IDgnAppSupport 5) !! a
     = mem_with IID_IDgnAppSupport 5 !! a) /\
  match _natlink_IID_Lookup 0 16 (mem_with IID_IDgnAppSupport 5),
        _natlink_IID_Lookup 0 16
          (<[100 := Byte.x07]> (mem_with IID_IDgnAppSupport 5)) with
  | Some (r1, m1'), Some (r2, m2') =>
      r1 = r2 /\
      forall a, in_range 0 16 a \/ in_range 16 4 a -> m2' !! a = m1' !! a
  | None, None => True
  | _, _ => False
  end.
Proof.
  split; [exact mem_with_extra_agrees|].
  exact (IID_Lookup_local _ _ 0 16 mem_with_extra_agrees).
Defined.

(** ** Agreement of the tables *)

Lemma proxy_slot_entries (k : Z) :
  proxy_slot _IDgnAppSupportProxyVtbl k =
  if (k <? 0) || (7 <=? k) then None
  else if k =? 0 then Some (Some IUnknown_QueryInterface_Proxy)
  else if k =? 1 then Some (Some IUnknown_AddRef_Proxy)
  else if k =? 2 then Some (Some IUnknown_Release_Proxy)
  else Some None.
Proof.
  destruct (k <? 0) eqn:E0; cbn [orb].
  - unfold proxy_slot. rewrite E0. reflexivity.
  - apply Z.ltb_ge in E0. destruct (7 <=? k) eqn:E7.
    + apply Z.leb_le in E7.
      destruct (proxy_slot _IDgnAppSupportProxyVtbl k) eqn:E; [|reflexivity].
      assert (Hs : is_Some (proxy_slot _IDgnAppSupportProxyVtbl k)) by eauto.
      apply proxy_slot_in_table in Hs. lia.
    + apply Z.leb_gt in E7. ordinal_cases k; reflexivity.
Qed.

(** X5. The proxy table, the stub dispatch table and the offset tables
    agree, ordinal by ordinal, on what is delegated: a slot of the proxy
    table is null exactly where the stub table holds the forwarding
    function, which is exactly where the offset table holds the
    no-format marker; the proxy side and the server side read the same
    offset at every ordinal; and the proxy table binds a function
    exactly at the ordinals below the three-slot bias of the other
    tables. *)
Theorem delegated_slots_agree (k : Z) :
  (proxy_slot _IDgnAppSupportProxyVtbl k = Some None <->
   tp_index (pDispatchTable (stub_header _IDgnAppSupportStubVtbl)) k
     = Some STUB_FORWARDING_FUNCTION) /\
  (tp_index (pDispatchTable (stub_header _IDgnAppSupportStubVtbl)) k
     = Some STUB_FORWARDING_FUNCTION <->
   tp_index (FmtStringOffset
               (pServerInfo (stub_header _IDgnAppSupportStubVtbl))) k
     = Some NO_FORMAT_OFFSET) /\
  tp_index (ProxyInfo_FormatStringOffset IDgnAppSupport_ProxyInfo) k
    = tp_index (FmtStringOffset IDgnAppSupport_ServerInfo) k /\
  ((exists f, proxy_slot _IDgnAppSupportProxyVtbl k = Some (Some f)) <->
   0 <= k < - tp_offset (pDispatchTable
                           (stub_header _IDgnAppSupportStubVtbl))).
Proof.
  change (pServerInfo (stub_header _IDgnAppSupportStubVtbl))
    with IDgnAppSupport_ServerInfo.
  change (- tp_offset (pDispatchTable (stub_header _IDgnAppSupportStubVtbl)))
    with 3.
  split; [|split; [|split; [reflexivity|]]];
    rewrite ?proxy_slot_entries, ?pDispatchTable_entries,
            ?FmtStringOffset_entries.
  - destruct (k <? 0) eqn:E0, (7 <=? k) eqn:E7, (3 <=? k) eqn:E3,
             (k <? 7) eqn:E7', (k =? 0) eqn:K0, (k =? 1) eqn:K1,
             (k =? 2) eqn:K2; cbn [orb andb];
      split; intros H; try discriminate H; try reflexivity; exfalso;
      repeat match goal with
             | E : (_ <? _) = true |- _ => apply Z.ltb_lt in E
             | E : (_ <? _) = false |- _ => apply Z.ltb_ge in E
             | E : (_ <=? _) = true |- _ => apply Z.leb_le in E
             | E : (_ <=? _) = false |- _ => apply Z.leb_gt in E
             | E : (_ =? _) = true |- _ => apply Z.eqb_eq in E
             | E : (_ =? _) = false |- _ => apply Z.eqb_neq in E
             end; lia.
  - destruct ((3 <=? k) && (k <? 7)); [split; reflexivity|].
    split; [discriminate|].
    destruct (k =? 7); [|discriminate].
    unfold NO_FORMAT_OFFSET. vm_compute. discriminate.
  - destruct (k <? 0) eqn:E0, (7 <=? k) eqn:E7, (k =? 0) eqn:K0,
             (k =? 1) eqn:K1, (k =? 2) eqn:K2; cbn [orb];
      (split; [intros [f Hf]; try discriminate Hf | intros H]);
      repeat match goal with
             | E : (_ <? _) = true |- _ => apply Z.ltb_lt in E
             | E : (_ <? _) = false |- _ => apply Z.ltb_ge in E
             | E : (_ <=? _) = true |- _ => apply Z.leb_le in E
             | E : (_ <=? _) = false |- _ => apply Z.leb_gt in E
             | E : (_ =? _) = true |- _ => apply Z.eqb_eq in E
             | E : (_ =? _) = false |- _ => apply Z.eqb_neq in E
             end; try lia; eauto.
Qed.

(** ** The outcome of the translation *)

(** X6. What the conditional compilation makes of the unit.  On the
    architectures line 19 excludes the unit is empty and none of the
    [#error] gates is evaluated, whatever the rest of the environment.
    Elsewhere the first failing gate in the order of the source decides
    the error, and the tables exist exactly when all three gates are
    passed; they are then those of [natlink_ProxyFileInfo]. *)
Theorem translation_unit_outcome (e : build_env) :
  let x86 := _M_IA64 e = false /\ _M_AMD64 e = false /\ _ARM_ e = false in
  (translation_unit e = inr None <-> ~ x86) /\
  (translation_unit e = inl rpcproxy_h_outdated <->
   x86 /\ __RPCPROXY_H_VERSION__ e = false) /\
  (translation_unit e = inl Invalid_build_platform <->
   x86 /\ __RPCPROXY_H_VERSION__ e = true /\ __RPC_WIN32__ e = false) /\
  (translation_unit e = inl RPC_X_WRONG_STUB_VERSION <->
   x86 /\ __RPCPROXY_H_VERSION__ e = true /\ __RPC_WIN32__ e = true
   /\ _WIN32_WINNT e < NT60) /\
  (forall info, translation_unit e = inr (Some info) <->
   info = natlink_ProxyFileInfo /\
   x86 /\ __RPCPROXY_H_VERSION__ e = true /\ __RPC_WIN32__ e = true
   /\ NT60 <= _WIN32_WINNT e).
Proof.
  cbv zeta. unfold translation_unit, TARGET_IS_NT60_OR_LATER.
  destruct (_M_IA64 e), (_M_AMD64 e), (_ARM_ e),
           (__RPCPROXY_H_VERSION__ e), (__RPC_WIN32__ e);
    cbn [negb andb];
    destruct (NT60 <=? _WIN32_WINNT e) eqn:E; cbn [Z.eqb];
    first [apply Z.leb_le in E | apply Z.leb_gt in E].
  all: repeat match goal with |- _ /\ _ => split end; try intros info;
       split; intros H;
       try discriminate H;
       try (exfalso; intuition (discriminate || lia); fail);
       try (injection H as <-);
       intuition (try congruence; try lia).
Qed.

(** ** From a table entry to its index and back *)

(** X7. Every proxy table of [_natlink_ProxyVtblList] is found by its
    own identity: when the list holds a table at index [n] and the
    identity of that table is requested, the lookup succeeds and
    reports [n], so that the reported index leads back to the same
    table. *)
Theorem IID_Lookup_finds_every_entry
    (n : nat) (vt : CInterfaceProxyVtbl) (m : mem) (pIID pIndex : Z) :
  _natlink_ProxyVtblList !! n = Some (Some vt) ->
  load_GUID m pIID = Some (piid (header vt)) ->
  valid_int m pIndex ->
  exists m',
    _natlink_IID_Lookup pIID pIndex m = Some (1, m') /\
    load_int m' pIndex = Some (Z.of_nat n) /\
    _natlink_ProxyVtblList !! Z.to_nat (Z.of_nat n) = Some (Some vt).
Proof.
  intros Hn HI Hv.
  destruct n as [|[|n]]; [|discriminate Hn|discriminate Hn].
  cbn in Hn. apply (inj Some), (inj Some) in Hn. subst vt.
  destruct (store_int_total m pIndex 0 Hv) as [m' Hst].
  exists m'. split; [|split].
  - rewrite (IID_Lookup_match _ _ _ HI), Hst. reflexivity.
  - apply (load_store_int _ _ _ _ Hst).
  - reflexivity.
Qed.

Lemma IID_Lookup_finds_every_entry_witness :
  _natlink_ProxyVtblList !! 0%nat = Some (Some _IDgnAppSupportProxyVtbl) /\
  load_GUID (mem_with IID_IDgnAppSupport 5) 0
    = Some (piid (header _IDgnAppSupportProxyVtbl)) /\
  valid_int (mem_with IID_IDgnAppSupport 5) 16 /\
  exists m',
    _natlink_IID_Lookup 0 16 (mem_with IID_IDgnAppSupport 5) = Some (1, m') /\
    load_int m' 16 = Some (Z.of_nat 0) /\
    _natlink_ProxyVtblList !! Z.to_nat (Z.of_nat 0)
      = Some (Some _IDgnAppSupportProxyVtbl).
Proof.
  split; [reflexivity|].
  split; [vm_compute; reflexivity|].
  split; [exact mem_with_IDgnAppSupport_valid|].
  apply (IID_Lookup_finds_every_entry 0 _IDgnAppSupportProxyVtbl).
  - reflexivity.
  - vm_compute; reflexivity.
  - exact mem_with_IDgnAppSupport_valid.
Defined.
